(** * The quantum phase estimation template
    (pennylane/templates/subroutines/qpe.py)

    [QuantumPhaseEstimation unitary target_wires estimation_wires] checks
    that the two registers share no wire, builds the list of powers
    U^(2^(n-1)), ..., U^2, U of the unitary by repeated squaring, and queues
    one Hadamard and one controlled unitary per estimation wire followed by
    the inverse quantum Fourier transform of the estimation register.

    The embedding is a state-and-exception monad over the operation queue of
    the ambient recording context.  The matrix type is the duck-typed operand
    of Python's [@]: any type with a product. *)

From Stdlib Require Import ZArith Lia.
From stdpp Require Import base decidable list strings.

(** ** Matrices: the operand of [@] *)

Class MatMul (M : Type) := matmul : M → M → M.
Class MatEye (M : Type) := eye : M.

Infix "@" := matmul (at level 40, left associativity).

(** U to the power k by k-fold multiplication, the meaning of
    "U raised to the power k"; U^0 is the identity matrix. *)
Fixpoint matrix_power {M : Type} `{MatMul M, MatEye M} (U : M) (k : nat) : M :=
  match k with
  | O => eye
  | S k' => U @ matrix_power U k'
  end.

(** ** Operations, exceptions and the recording context *)

Inductive Gate (Wire M : Type) : Type :=
  | Hadamard (wires : Wire)
  | ControlledQubitUnitary (U : M) (control_wires : Wire) (wires : list Wire)
  | QFT (wires : list Wire).
Arguments Hadamard {Wire M} wires.
Arguments ControlledQubitUnitary {Wire M} U control_wires wires.
Arguments QFT {Wire M} wires.

(** An operation object: its gate and the [inverse] flag that [.inv()]
    toggles. *)
Record Operation (Wire M : Type) : Type := mkOperation {
  gate : Gate Wire M;
  inverse : bool
}.
Arguments mkOperation {Wire M} gate inverse.
Arguments gate {Wire M} o.
Arguments inverse {Wire M} o.

Definition toggle_inverse {Wire M : Type} (o : Operation Wire M) : Operation Wire M :=
  mkOperation (gate o) (negb (inverse o)).

Inductive Exception : Type :=
  | QuantumFunctionError (msg : string)
  | IndexError
  | ValueError.

Inductive Outcome (A : Type) : Type :=
  | Returns (a : A)
  | Raises (e : Exception).
Arguments Returns {A} a.
Arguments Raises {A} e.

(** The state a call runs in: the queue of the recording context, in
    emission order, and a ghost counter of the matrix products evaluated. *)
Record QueuingContext (Wire M : Type) : Type := mkContext {
  queue : list (Operation Wire M);
  matmuls : nat
}.
Arguments mkContext {Wire M} queue matmuls.
Arguments queue {Wire M} _.
Arguments matmuls {Wire M} _.

Definition Run (Wire M : Type) (A : Type) : Type :=
  QueuingContext Wire M → Outcome A * QueuingContext Wire M.

Global Instance Run_ret {Wire M} : MRet (Run Wire M) :=
  λ A a s, (Returns a, s).

Global Instance Run_bind {Wire M} : MBind (Run Wire M) :=
  λ A B f c s,
    match c s with
    | (Returns a, s') => f a s'
    | (Raises e, s') => (Raises e, s')
    end.

Definition raise {Wire M A} (e : Exception) : Run Wire M A :=
  λ s, (Raises e, s).

(** [for x in xs: acc = body x acc], the loop-carried local variable passed
    along. *)
Fixpoint for_in {Wire M A S : Type} (xs : list A) (body : A → S → Run Wire M S)
    (acc : S) : Run Wire M S :=
  match xs with
  | [] => mret acc
  | x :: xs' => acc' ← body x acc; for_in xs' body acc'
  end.

(** Python built-ins used by the template. *)
Definition len {A : Type} (l : list A) : Z := Z.of_nat (length l).

Definition range (stop : Z) : list Z := Z.of_nat <$> seq 0 (Z.to_nat stop).

(** [l[i]] for a non-negative index: IndexError out of range. *)
Definition getitem {Wire M A : Type} (l : list A) (i : nat) : Run Wire M A :=
  match l !! i with
  | Some x => mret x
  | None => raise IndexError
  end.

Section QPE.
Context {Wire : Type} `{EqDecision Wire}.
Context {M : Type} `{MatMul M}.

Local Abbreviation Op := (Operation Wire M).
Local Abbreviation Cmd := (Run Wire M).

(** [a @ b] as a step of the run: the product, counted. *)
Definition matmul_step (a b : M) : Cmd M :=
  λ s, (Returns (a @ b), mkContext (queue s) (S (matmuls s))).

(** Modelled from the spec: the operation classes [qml.Hadamard],
    [qml.ControlledQubitUnitary] and [qml.QFT] are not part of the sources.
    An emitted operation is a value object; constructing one appends it to
    the queue of the active context and raises nothing.  The object stays
    reachable there, so the value returned is its position in the queue. *)
Definition construct (g : Gate Wire M) : Cmd nat :=
  λ s, (Returns (length (queue s)),
        mkContext (queue s ++ [mkOperation g false]) (matmuls s)).

Definition qml_Hadamard (wires : Wire) : Cmd nat :=
  construct (Hadamard wires).

Definition qml_ControlledQubitUnitary (U : M) (control_wires : Wire)
    (wires : list Wire) : Cmd nat :=
  construct (ControlledQubitUnitary U control_wires wires).

Definition qml_QFT (wires : list Wire) : Cmd nat :=
  construct (QFT wires).

(** [op.inv()]: flips the flag of the queued object in place. *)
Definition inv (op : nat) : Cmd nat :=
  λ s, (Returns op, mkContext (alter toggle_inverse op (queue s)) (matmuls s)).

(** Modelled from the spec: class [Wires] of [pennylane.wires] is not
    part of the sources.  A register is an ordered collection of wire
    identifiers; converting a register yields that register. *)
Definition Wires (wires : list Wire) : list Wire := wires.

(** Modelled from the spec: [Wires.shared_wires] is not part of the
    sources.  It is the intersection of the registers, kept in the order
    of the first one. *)
Definition shared_wires (list_of_wires : list (list Wire)) : list Wire :=
  match list_of_wires with
  | [] => []
  | first :: others => foldl list_intersection first others
  end.

Definition overlap_message : string :=
  "The target wires and estimation wires must be different".

(** Lines 118-119, the body of the first loop:
    [new_power = unitary_powers[0] @ unitary_powers[0]] and
    [unitary_powers.insert(0, new_power)]. *)
Definition square_first (i : Z) (unitary_powers : list M) : Cmd (list M) :=
  a ← getitem unitary_powers 0%nat;
  b ← getitem unitary_powers 0%nat;
  new_power ← matmul_step a b;
  mret (new_power :: unitary_powers).

(** Lines 115-119: the list of powers, grown at the front by squaring its
    first element. *)
Definition build_unitary_powers (unitary : M) (estimation_wires : list Wire)
    : Cmd (list M) :=
  for_in (range (len estimation_wires - 1)%Z) square_first [unitary].

(** Lines 122-123, the body of the second loop. *)
Definition apply_pair (target_wires : list Wire) (pair : Wire * M) (_ : unit)
    : Cmd unit :=
  let '(wire, u) := pair in
  _ ← qml_Hadamard wire;
  _ ← qml_ControlledQubitUnitary u wire target_wires;
  mret ().

(** Lines 109-125, the body of the template. *)
Definition QuantumPhaseEstimation (unitary : M)
    (target_wires estimation_wires : list Wire) : Cmd unit :=
  let target_wires := Wires target_wires in
  let estimation_wires := Wires estimation_wires in
  if decide (len (shared_wires [target_wires; estimation_wires]) ≠ 0%Z)
  then raise (QuantumFunctionError overlap_message)
  else
    unitary_powers ← build_unitary_powers unitary estimation_wires;
    for_in (zip estimation_wires unitary_powers)
      (apply_pair target_wires) () ;;
    op ← qml_QFT estimation_wires;
    _ ← inv op;
    mret ().

(** Modelled from the spec: the decorator [template] of
    [pennylane.templates.decorator] is not part of the sources.  [build]
    runs the body against an empty recording and returns the operations
    recorded, in order, or the exception raised. *)
Definition build (unitary : M) (target_wires estimation_wires : list Wire)
    : Outcome (list Op) :=
  match QuantumPhaseEstimation unitary target_wires estimation_wires
          (mkContext [] 0%nat) with
  | (Returns _, s) => Returns (queue s)
  | (Raises e, _) => Raises e
  end.

(** The list of powers [build] computes, read off the run of lines
    115-119. *)
Definition unitary_powers_of (unitary : M) (estimation_wires : list Wire)
    : Outcome (list M) :=
  (build_unitary_powers unitary estimation_wires (mkContext [] 0%nat)).1.

Definition is_controlled (o : Op) : bool :=
  match gate o with
  | ControlledQubitUnitary _ _ _ => true
  | _ => false
  end.

(** The matrix a controlled-unitary operation carries. *)
Definition carried_matrix (o : Op) : option M :=
  match gate o with
  | ControlledQubitUnitary u _ _ => Some u
  | _ => None
  end.

(** The controlled-unitary operations of a sequence, in emission order. *)
Definition controlled_ops (ops : list Op) : list Op :=
  filter (λ o, is_controlled o = true) ops.

(** *** Closed forms used to state what a run yields *)

Definition registers_disjoint (target_wires estimation_wires : list Wire) : Prop :=
  Forall (λ w, w ∉ estimation_wires) target_wires.

Definition registers_overlap (target_wires estimation_wires : list Wire) : Prop :=
  Exists (λ w, w ∈ estimation_wires) target_wires.

(** One squaring step on the list, and the list after [k] squarings. *)
Definition square_front (l : list M) : list M :=
  match l with
  | [] => []
  | x :: _ => (x @ x) :: l
  end.

Definition power_ladder (unitary : M) (k : nat) : list M :=
  Nat.iter k square_front [unitary].

Definition hadamard_op (wire : Wire) : Op :=
  mkOperation (Hadamard wire) false.

Definition controlled_op (u : M) (wire : Wire) (target_wires : list Wire) : Op :=
  mkOperation (ControlledQubitUnitary u wire target_wires) false.

Definition inverse_qft_op (wires : list Wire) : Op :=
  mkOperation (QFT wires) true.

Definition pair_ops (target_wires : list Wire) (pair : Wire * M) : list Op :=
  [hadamard_op pair.1; controlled_op pair.2 pair.1 target_wires].

(** The operations a successful call appends to the queue. *)
Definition emitted (unitary : M) (target_wires estimation_wires : list Wire)
    : list Op :=
  (zip estimation_wires (power_ladder unitary (length estimation_wires - 1))
     ≫= pair_ops target_wires)
  ++ [inverse_qft_op estimation_wires].

End QPE.

(** ** The template over operation constructors that may raise

    The template does not validate its arguments beyond the check of line
    112; whatever else is validated is validated by the constructors of
    the operations it builds in lines 122-125.  Those classes are not part
    of the sources, so what a constructor raises for a gate, if anything,
    is a parameter. *)

Section QPE_checked.
Context {Wire : Type} `{EqDecision Wire}.
Context {M : Type} `{MatMul M}.
Variable validate : Gate Wire M → option Exception.

Local Abbreviation Cmd := (Run Wire M).

(** Constructing an operation: the constructor raises what [validate]
    says, before the object is queued, or queues the object. *)
Definition construct_checked (g : Gate Wire M) : Cmd nat :=
  match validate g with
  | Some e => raise e
  | None => construct g
  end.

(** Lines 122-123. *)
Definition apply_pair_checked (target_wires : list Wire) (pair : Wire * M)
    (_ : unit) : Cmd unit :=
  let '(wire, u) := pair in
  _ ← construct_checked (Hadamard wire);
  _ ← construct_checked (ControlledQubitUnitary u wire target_wires);
  mret ().

(** Lines 109-125. *)
Definition QuantumPhaseEstimation_checked (unitary : M)
    (target_wires estimation_wires : list Wire) : Cmd unit :=
  let target_wires := Wires target_wires in
  let estimation_wires := Wires estimation_wires in
  if decide (len (shared_wires [target_wires; estimation_wires]) ≠ 0%Z)
  then raise (QuantumFunctionError overlap_message)
  else
    unitary_powers ← build_unitary_powers unitary estimation_wires;
    for_in (zip estimation_wires unitary_powers)
      (apply_pair_checked target_wires) () ;;
    op ← construct_checked (QFT estimation_wires);
    _ ← inv op;
    mret ().

End QPE_checked.

(** Modelled from the spec: the constructor of the controlled unitary is
    not part of the sources.  "Matrix dimension of the unitary must equal
    2^(len(target register))" is the precondition left to it; for a matrix
    of dimension [dim] the constructor raises ValueError when the register
    it is given does not have that size. *)
Definition dimension_check {Wire M : Type} (dim : nat) (g : Gate Wire M)
    : option Exception :=
  match g with
  | ControlledQubitUnitary _ _ wires =>
      if decide (2 ^ length wires = dim) then None else Some ValueError
  | _ => None
  end.

(** ** A concrete matrix type: 2x2 matrices over the Gaussian integers *)

Module Mat2.

Record GInt : Type := mkG { re : Z; im : Z }.

Definition gadd (a b : GInt) : GInt :=
  mkG (re a + re b)%Z (im a + im b)%Z.
Definition gmul (a b : GInt) : GInt :=
  mkG (re a * re b - im a * im b)%Z (re a * im b + im a * re b)%Z.

Record mat : Type := mkMat { m00 : GInt; m01 : GInt; m10 : GInt; m11 : GInt }.

Definition mul (a b : mat) : mat :=
  mkMat (gadd (gmul (m00 a) (m00 b)) (gmul (m01 a) (m10 b)))
        (gadd (gmul (m00 a) (m01 b)) (gmul (m01 a) (m11 b)))
        (gadd (gmul (m10 a) (m00 b)) (gmul (m11 a) (m10 b)))
        (gadd (gmul (m10 a) (m01 b)) (gmul (m11 a) (m11 b))).

Definition g0 : GInt := mkG 0%Z 0%Z.
Definition g1 : GInt := mkG 1%Z 0%Z.
Definition gi : GInt := mkG 0%Z 1%Z.
Definition gm1 : GInt := mkG (-1)%Z 0%Z.

Definition I2 : mat := mkMat g1 g0 g0 g1.
(** The phase gate diag(1, i), eigenphase 1/4 on |1>. *)
Definition S_gate : mat := mkMat g1 g0 g0 gi.
Definition Z_gate : mat := mkMat g1 g0 g0 gm1.
Definition X_gate : mat := mkMat g0 g1 g1 g0.

Global Instance mat_matmul : MatMul mat := mul.
Global Instance mat_eye : MatEye mat := I2.

Global Instance GInt_eq_dec : EqDecision GInt.
Proof. solve_decision. Defined.
Global Instance mat_eq_dec : EqDecision mat.
Proof. solve_decision. Defined.

(** Conjugate transpose. *)
Definition gconj (a : GInt) : GInt := mkG (re a) (- im a)%Z.

Definition adj (a : mat) : mat :=
  mkMat (gconj (m00 a)) (gconj (m10 a)) (gconj (m01 a)) (gconj (m11 a)).

Definition is_diagonal (a : mat) : Prop := m01 a = g0 ∧ m10 a = g0.

(** Column vectors, the product of a matrix with a vector and the multiple
    of a vector by a scalar. *)
Record vec : Type := mkVec { v0 : GInt; v1 : GInt }.

Definition mat_vec (a : mat) (v : vec) : vec :=
  mkVec (gadd (gmul (m00 a) (v0 v)) (gmul (m01 a) (v1 v)))
        (gadd (gmul (m10 a) (v0 v)) (gmul (m11 a) (v1 v))).

Definition vscale (c : GInt) (v : vec) : vec :=
  mkVec (gmul c (v0 v)) (gmul c (v1 v)).

(** Scalars multiply like 1x1 matrices. *)
Global Instance GInt_matmul : MatMul GInt := gmul.
Global Instance GInt_eye : MatEye GInt := g1.

End Mat2.

(** ** Unitary matrices *)

(** The conjugate transpose of a matrix. *)
Class MatAdj (M : Type) := adjoint : M → M.

Global Instance Mat2_adjoint : MatAdj Mat2.mat := Mat2.adj.

(** A matrix is unitary when its conjugate transpose is its inverse. *)
Definition is_unitary {M : Type} `{MatMul M, MatEye M, MatAdj M} (U : M) : Prop :=
  adjoint U @ U = eye ∧ U @ adjoint U = eye.

(** What an operation of the template may look like for given registers:
    a Hadamard on an estimation wire, a controlled unitary on the target
    register whose control is an estimation wire outside the target
    register, both not inverted, or the inverted QFT of the estimation
    register. *)
Definition well_formed_op {Wire M : Type} (target_wires estimation_wires : list Wire)
    (o : Operation Wire M) : Prop :=
  match gate o with
  | Hadamard w => w ∈ estimation_wires ∧ inverse o = false
  | ControlledQubitUnitary _ c ws =>
      c ∈ estimation_wires ∧ (c ∉ target_wires) ∧ ws = target_wires ∧
      inverse o = false
  | QFT ws => ws = estimation_wires ∧ inverse o = true
  end.


(** * Properties of the template *)

Section run_lemmas.
Context {Wire : Type} `{EqDecision Wire}.
Context {M : Type} `{MatMul M}.

Local Abbreviation Op := (Operation Wire M).
Local Abbreviation Cmd := (Run Wire M).
Local Abbreviation Ctx := (QueuingContext Wire M).

Lemma bind_returns {A B} (c : Cmd A) (f : A → Cmd B) (s s' : Ctx) (a : A) :
  c s = (Returns a, s') → (c ≫= f) s = f a s'.
Proof. intros Hc. unfold mbind, Run_bind. by rewrite Hc. Qed.

Lemma bind_raises {A B} (c : Cmd A) (f : A → Cmd B) (s s' : Ctx) (e : Exception) :
  c s = (Raises e, s') → (c ≫= f) s = (Raises e, s').
Proof. intros Hc. unfold mbind, Run_bind. by rewrite Hc. Qed.

(** ** The registers check *)

Lemma shared_wires_pair (t e : list Wire) :
  shared_wires [t; e] = list_intersection t e.
Proof. reflexivity. Qed.

Lemma shared_wires_nil_disjoint (t e : list Wire) :
  shared_wires [t; e] = [] ↔ registers_disjoint t e.
Proof.
  rewrite shared_wires_pair. unfold registers_disjoint.
  rewrite Forall_forall. split.
  - intros Hnil w Hw Hwe.
    assert (w ∈ list_intersection t e) as Hin
      by (apply list_elem_of_intersection; done).
    rewrite Hnil in Hin. by apply not_elem_of_nil in Hin.
  - intros Hdis. destruct (list_intersection t e) as [|w l] eqn:Hl; [done|].
    assert (w ∈ list_intersection t e) as Hin by (rewrite Hl; left).
    apply list_elem_of_intersection in Hin as [Hwt Hwe].
    by destruct (Hdis w Hwt).
Qed.

Lemma shared_wires_cons_overlap (t e : list Wire) :
  shared_wires [t; e] ≠ [] ↔ registers_overlap t e.
Proof.
  rewrite shared_wires_pair. unfold registers_overlap.
  rewrite Exists_exists. split.
  - destruct (list_intersection t e) as [|w l] eqn:Hl; [done|]. intros _.
    assert (w ∈ list_intersection t e) as Hin by (rewrite Hl; left).
    apply list_elem_of_intersection in Hin. by exists w.
  - intros (w & Hwt & Hwe) Hnil.
    assert (w ∈ list_intersection t e) as Hin
      by (apply list_elem_of_intersection; done).
    rewrite Hnil in Hin. by apply not_elem_of_nil in Hin.
Qed.

Lemma overlap_not_disjoint (t e : list Wire) :
  registers_overlap t e ↔ ¬ registers_disjoint t e.
Proof.
  rewrite <- shared_wires_cons_overlap, <- shared_wires_nil_disjoint. done.
Qed.

Lemma len_nonzero {A} (l : list A) : len l ≠ 0%Z ↔ l ≠ [].
Proof. unfold len. destruct l; simpl; split; intros; try done; lia. Qed.

(** ** The first loop: repeated squaring *)

Lemma length_range (stop : Z) : length (range stop) = Z.to_nat stop.
Proof. unfold range. by rewrite length_fmap, length_seq. Qed.

Lemma square_first_run (i : Z) (x : M) (l : list M) (s : Ctx) :
  square_first i (x :: l) s
  = (Returns (square_front (x :: l)), mkContext (queue s) (S (matmuls s))).
Proof. reflexivity. Qed.

Lemma squaring_loop_run (xs : list Z) :
  ∀ (acc : list M) (s : Ctx), acc ≠ [] →
    for_in xs square_first acc s
    = (Returns (Nat.iter (length xs) square_front acc),
       mkContext (queue s) (matmuls s + length xs)).
Proof.
  induction xs as [|x xs IH]; intros acc s Hacc.
  - destruct s as [q m]. simpl. unfold mret, Run_ret.
    by rewrite Nat.add_0_r.
  - destruct acc as [|a acc]; [done|].
    cbn [for_in length].
    rewrite (bind_returns _ _ _ _ _ (square_first_run x a acc s)).
    rewrite IH by done. cbn [queue matmuls].
    rewrite Nat.iter_succ_r. do 2 f_equal. lia.
Qed.

Lemma build_unitary_powers_run (unitary : M) (est : list Wire) (s : Ctx) :
  build_unitary_powers unitary est s
  = (Returns (power_ladder unitary (length est - 1)),
     mkContext (queue s) (matmuls s + (length est - 1))).
Proof.
  unfold build_unitary_powers. rewrite squaring_loop_run by done.
  rewrite length_range. unfold len, power_ladder.
  by replace (Z.to_nat (Z.of_nat (length est) - 1)) with (length est - 1) by lia.
Qed.

Lemma length_power_ladder (unitary : M) (k : nat) :
  length (power_ladder unitary k) = S k.
Proof.
  unfold power_ladder. induction k as [|k IH]; [done|].
  rewrite Nat.iter_succ.
  destruct (Nat.iter k square_front [unitary]) as [|x l]; [done|].
  simpl in *. lia.
Qed.

Lemma power_ladder_succ (unitary : M) (k : nat) :
  power_ladder unitary (S k) = square_front (power_ladder unitary k).
Proof. reflexivity. Qed.

(** ** The second loop: one Hadamard and one controlled unitary per pair *)

Lemma apply_pair_run (target : list Wire) (p : Wire * M) (s : Ctx) :
  apply_pair target p () s
  = (Returns (), mkContext (queue s ++ pair_ops target p) (matmuls s)).
Proof.
  destruct p as [w u]. unfold apply_pair, pair_ops.
  unfold mbind, Run_bind, qml_Hadamard, qml_ControlledQubitUnitary,
    construct, mret, Run_ret. cbn.
  by rewrite <- app_assoc.
Qed.

Lemma emission_loop_run (target : list Wire) (ps : list (Wire * M)) :
  ∀ s : Ctx,
    for_in ps (apply_pair target) () s
    = (Returns (), mkContext (queue s ++ ps ≫= pair_ops target) (matmuls s)).
Proof.
  induction ps as [|p ps IH]; intros s.
  - destruct s as [q m]. cbn. by rewrite app_nil_r.
  - cbn [for_in].
    rewrite (bind_returns _ _ _ _ _ (apply_pair_run target p s)).
    rewrite IH. cbn [queue matmuls]. rewrite bind_cons.
    by rewrite app_assoc.
Qed.

(** ** The whole body *)

Lemma inverse_qft_run (wires : list Wire) (s : Ctx) :
  (op ← qml_QFT wires; _ ← inv op; mret ()) s
  = (Returns (), mkContext (queue s ++ [inverse_qft_op wires]) (matmuls s)).
Proof.
  unfold mbind, Run_bind, qml_QFT, construct, inv, mret, Run_ret.
  cbn [queue matmuls]. do 2 f_equal.
  rewrite <- (Nat.add_0_r (length (queue s))). by rewrite alter_app_r.
Qed.

Lemma QuantumPhaseEstimation_disjoint (U : M) (t e : list Wire) (s : Ctx) :
  registers_disjoint t e →
  QuantumPhaseEstimation U t e s
  = (Returns (),
     mkContext (queue s ++ emitted U t e) (matmuls s + (length e - 1))).
Proof.
  intros Hdis. apply shared_wires_nil_disjoint in Hdis.
  unfold QuantumPhaseEstimation, Wires. rewrite Hdis.
  case_decide as Hlen; [done|].
  rewrite (bind_returns _ _ _ _ _ (build_unitary_powers_run U e s)).
  rewrite (bind_returns _ _ _ _ _ (emission_loop_run t _ _)).
  rewrite inverse_qft_run. cbn [queue matmuls]. unfold emitted.
  by rewrite app_assoc.
Qed.

Lemma QuantumPhaseEstimation_overlap (U : M) (t e : list Wire) (s : Ctx) :
  registers_overlap t e →
  QuantumPhaseEstimation U t e s
  = (Raises (QuantumFunctionError overlap_message), s).
Proof.
  intros Hov. apply shared_wires_cons_overlap, len_nonzero in Hov.
  unfold QuantumPhaseEstimation, Wires. by case_decide.
Qed.

Lemma build_disjoint (U : M) (t e : list Wire) :
  registers_disjoint t e → build U t e = Returns (emitted U t e).
Proof.
  intros Hdis. unfold build.
  by rewrite QuantumPhaseEstimation_disjoint.
Qed.

Lemma build_overlap (U : M) (t e : list Wire) :
  registers_overlap t e →
  build U t e = Raises (QuantumFunctionError overlap_message).
Proof.
  intros Hov. unfold build.
  by rewrite QuantumPhaseEstimation_overlap.
Qed.

Lemma registers_disjoint_or_overlap (t e : list Wire) :
  registers_disjoint t e ∨ registers_overlap t e.
Proof.
  destruct (decide (registers_disjoint t e)) as [Hd|Hd]; [by left|right].
  by apply overlap_not_disjoint.
Qed.

(** ** Shape of the emitted sequence *)

Lemma length_pairs_ops (target : list Wire) (ps : list (Wire * M)) :
  length (ps ≫= pair_ops target) = 2 * length ps.
Proof.
  induction ps as [|p ps IH]; [done|].
  rewrite bind_cons, length_app, IH. simpl. lia.
Qed.

Lemma lookup_pairs_ops (target : list Wire) (ps : list (Wire * M)) :
  ∀ (i : nat) (w : Wire) (u : M), ps !! i = Some (w, u) →
    (ps ≫= pair_ops target) !! (2 * i) = Some (hadamard_op w) ∧
    (ps ≫= pair_ops target) !! (2 * i + 1) = Some (controlled_op u w target).
Proof.
  induction ps as [|p ps IH]; intros i w u Hi; [done|].
  rewrite bind_cons. destruct i as [|i].
  - simpl in Hi. injection Hi as ->. done.
  - simpl in Hi. destruct (IH i w u Hi) as [IH1 IH2].
    replace (2 * S i) with (S (S (2 * i))) by lia.
    replace (S (S (2 * i)) + 1) with (S (S (2 * i + 1))) by lia.
    done.
Qed.

Lemma controlled_pairs_ops (target : list Wire) (ps : list (Wire * M)) :
  controlled_ops (ps ≫= pair_ops target)
  = (λ p, controlled_op p.2 p.1 target) <$> ps.
Proof.
  unfold controlled_ops.
  induction ps as [|p ps IH]; [done|].
  rewrite bind_cons, filter_app, IH. done.
Qed.

Lemma controlled_ops_emitted (U : M) (target est : list Wire) :
  controlled_ops (emitted U target est)
  = (λ p, controlled_op p.2 p.1 target)
      <$> zip est (power_ladder U (length est - 1)).
Proof.
  unfold emitted, controlled_ops. rewrite filter_app.
  fold (controlled_ops (zip est (power_ladder U (length est - 1))
                          ≫= pair_ops target)).
  rewrite controlled_pairs_ops. apply app_nil_r.
Qed.

End run_lemmas.

(** ** The 2x2 Gaussian-integer matrices form a monoid *)

Lemma Mat2_mul_assoc (a b c : Mat2.mat) : a @ (b @ c) = (a @ b) @ c.
Proof.
  destruct a as [[] [] [] []], b as [[] [] [] []], c as [[] [] [] []].
  unfold matmul, Mat2.mat_matmul, Mat2.mul, Mat2.gadd, Mat2.gmul; cbn.
  f_equal; f_equal; ring.
Qed.

Lemma Mat2_mul_eye_r (a : Mat2.mat) : a @ eye = a.
Proof.
  destruct a as [[] [] [] []].
  unfold matmul, eye, Mat2.mat_matmul, Mat2.mat_eye, Mat2.mul, Mat2.I2,
    Mat2.gadd, Mat2.gmul; cbn.
  f_equal; f_equal; ring.
Qed.

Example S_gate_squared : Mat2.S_gate @ Mat2.S_gate = Mat2.Z_gate.
Proof. reflexivity. Qed.

Example S_gate_fourth : matrix_power Mat2.S_gate 4 = Mat2.I2.
Proof. reflexivity. Qed.

(** The end-to-end scenario: phase gate on wire 0, estimation wires 1, 2. *)
Example build_S_gate :
  build Mat2.S_gate [0%Z] [1%Z; 2%Z]
  = Returns [hadamard_op 1%Z; controlled_op Mat2.Z_gate 1%Z [0%Z];
             hadamard_op 2%Z; controlled_op Mat2.S_gate 2%Z [0%Z];
             inverse_qft_op [1%Z; 2%Z]].
Proof. reflexivity. Qed.

Example build_S_gate_swapped :
  build Mat2.S_gate [0%Z] [2%Z; 1%Z]
  = Returns [hadamard_op 2%Z; controlled_op Mat2.Z_gate 2%Z [0%Z];
             hadamard_op 1%Z; controlled_op Mat2.S_gate 1%Z [0%Z];
             inverse_qft_op [2%Z; 1%Z]].
Proof. reflexivity. Qed.

Example build_overlapping :
  build Mat2.S_gate [0%Z; 1%Z] [2%Z; 1%Z]
  = Raises (QuantumFunctionError overlap_message).
Proof. reflexivity. Qed.

(** ** Powers of a matrix with an associative product *)

Section powers.
Context {M : Type} `{MatMul M, MatEye M}.
Hypothesis matmul_assoc : ∀ a b c : M, a @ (b @ c) = (a @ b) @ c.
Hypothesis matmul_eye_r : ∀ a : M, a @ eye = a.

Lemma matrix_power_1 (U : M) : matrix_power U 1 = U.
Proof. simpl. apply matmul_eye_r. Qed.

Lemma matrix_power_add_succ (U : M) (a b : nat) :
  matrix_power U (S a + b) = matrix_power U (S a) @ matrix_power U b.
Proof.
  induction a as [|a IH].
  - change (U @ matrix_power U b = matrix_power U 1 @ matrix_power U b).
    by rewrite matrix_power_1.
  - change (U @ matrix_power U (S a + b)
            = (U @ matrix_power U (S a)) @ matrix_power U b).
    by rewrite IH, matmul_assoc.
Qed.

Lemma matrix_power_square (U : M) (k : nat) :
  matrix_power U (2 ^ k) @ matrix_power U (2 ^ k) = matrix_power U (2 ^ S k).
Proof.
  assert (∃ p, 2 ^ k = S p) as [p Hp].
  { exists (2 ^ k - 1). pose proof (Nat.pow_nonzero 2 k). lia. }
  replace (2 ^ S k) with (S p + 2 ^ k) by (rewrite Nat.pow_succ_r'; lia).
  by rewrite matrix_power_add_succ, Hp.
Qed.

(** Entry [i] of the list after [k] squarings is U^(2^(k-i)). *)
Lemma power_ladder_lookup (U : M) (k : nat) :
  ∀ i, i ≤ k → power_ladder U k !! i = Some (matrix_power U (2 ^ (k - i))).
Proof.
  induction k as [|k IH]; intros i Hi.
  - replace i with 0 by lia. cbn -[matrix_power]. f_equal.
    symmetry. apply matrix_power_1.
  - rewrite power_ladder_succ.
    pose proof (IH 0 ltac:(lia)) as Hhd. rewrite Nat.sub_0_r in Hhd.
    destruct (power_ladder U k) as [|h tl] eqn:Hl; [done|].
    injection Hhd as ->. destruct i as [|i].
    + cbn [square_front lookup list_lookup]. rewrite Nat.sub_0_r.
      by rewrite matrix_power_square.
    + cbn [square_front]. rewrite lookup_cons_ne_0 by done.
      replace (S k - S i) with (k - i) by lia.
      apply IH. lia.
Qed.

End powers.

(** * The claims *)

Section exponents.
Context {Wire : Type} `{EqDecision Wire}.
Context {M : Type} `{MatMul M, MatEye M}.
Hypothesis matmul_assoc : ∀ a b c : M, a @ (b @ c) = (a @ b) @ c.
Hypothesis matmul_eye_r : ∀ a : M, a @ eye = a.

(** C1.  For registers that share no wire the call succeeds, it emits one
    controlled unitary per estimation wire, and the i-th of them (from 0,
    in the order of the estimation register) carries U to the power
    2^(n-1-i), is controlled on the i-th estimation wire and targets the
    whole target register.  In particular the first estimation wire gets
    U^(2^(n-1)) and the last gets U itself.  Nothing here needs the
    registers to be non-empty. *)
Theorem controlled_unitary_exponents (U : M) (target est : list Wire) :
  registers_disjoint target est →
  ∃ ops : list (Operation Wire M),
    build U target est = Returns ops ∧
    length (controlled_ops ops) = length est ∧
    (∀ (i : nat) (w : Wire), est !! i = Some w →
       controlled_ops ops !! i
       = Some (controlled_op (matrix_power U (2 ^ (length est - 1 - i)))
                 w target)) ∧
    (∀ w : Wire, head est = Some w →
       controlled_ops ops !! 0
       = Some (controlled_op (matrix_power U (2 ^ (length est - 1)))
                 w target)) ∧
    (∀ w : Wire, last est = Some w →
       controlled_ops ops !! (length est - 1)
       = Some (controlled_op U w target)).
Proof.
  intros Hdis. exists (emitted U target est).
  split; [by apply build_disjoint|].
  rewrite controlled_ops_emitted.
  assert (∀ (i : nat) (w : Wire), est !! i = Some w →
            ((λ p, controlled_op p.2 p.1 target)
               <$> zip est (power_ladder U (length est - 1))) !! i
            = Some (controlled_op
                      (matrix_power U (2 ^ (length est - 1 - i))) w target))
    as Hith.
  { intros i w Hi. pose proof (lookup_lt_Some _ _ _ Hi) as Hlt.
    rewrite list_lookup_fmap.
    assert (zip est (power_ladder U (length est - 1)) !! i
            = Some (w, matrix_power U (2 ^ (length est - 1 - i)))) as ->.
    { apply lookup_zip_Some. split; [done|].
      apply power_ladder_lookup; [done|done|lia]. }
    done. }
  split; [|split; [done|split]].
  - rewrite length_fmap, length_zip, length_power_ladder.
    destruct est; simpl; lia.
  - intros w Hw. rewrite (Hith 0 w), Nat.sub_0_r; [done|].
    by rewrite <- head_lookup.
  - intros w Hw. rewrite last_lookup in Hw.
    replace (pred (length est)) with (length est - 1) in Hw by lia.
    rewrite (Hith _ w Hw), Nat.sub_diag. simpl.
    by rewrite matmul_eye_r.
Qed.

End exponents.

(** Witness of C1: the phase gate on wire 0 with estimation wires 1, 2. *)
Lemma controlled_unitary_exponents_witness :
  ∃ ops : list (Operation Z Mat2.mat),
    build Mat2.S_gate [0%Z] [1%Z; 2%Z] = Returns ops ∧
    length (controlled_ops ops) = 2 ∧
    (∀ (i : nat) (w : Z), [1%Z; 2%Z] !! i = Some w →
       controlled_ops ops !! i
       = Some (controlled_op (matrix_power Mat2.S_gate (2 ^ (2 - 1 - i)))
                 w [0%Z])) ∧
    (∀ w : Z, head [1%Z; 2%Z] = Some w →
       controlled_ops ops !! 0
       = Some (controlled_op (matrix_power Mat2.S_gate (2 ^ (2 - 1)))
                 w [0%Z])) ∧
    (∀ w : Z, last [1%Z; 2%Z] = Some w →
       controlled_ops ops !! (2 - 1)
       = Some (controlled_op Mat2.S_gate w [0%Z])).
Proof.
  apply (controlled_unitary_exponents Mat2_mul_assoc Mat2_mul_eye_r
           Mat2.S_gate [0%Z] [1%Z; 2%Z]).
  compute_done.
Defined.

Section registers_and_shape.
Context {Wire : Type} `{EqDecision Wire}.
Context {M : Type} `{MatMul M}.

Local Abbreviation Op := (Operation Wire M).
Local Abbreviation Ctx := (QueuingContext Wire M).

(** C2.  If the registers share a wire the call raises the
    QuantumFunctionError of line 113 and leaves the context as it found
    it: no product has been evaluated and nothing has been queued.  If
    they share none, the call returns and [build] yields a sequence. *)
Theorem overlapping_registers_rejected (U : M) (target est : list Wire)
    (s : Ctx) :
  (registers_overlap target est →
     build U target est = Raises (QuantumFunctionError overlap_message) ∧
     QuantumPhaseEstimation U target est s
     = (Raises (QuantumFunctionError overlap_message), s)) ∧
  (registers_disjoint target est →
     (∃ ops : list Op, build U target est = Returns ops) ∧
     (QuantumPhaseEstimation U target est s).1 = Returns ()).
Proof.
  split.
  - intros Hov. split.
    + by apply build_overlap.
    + by apply QuantumPhaseEstimation_overlap.
  - intros Hdis. split.
    + exists (emitted U target est). by apply build_disjoint.
    + by rewrite QuantumPhaseEstimation_disjoint.
Qed.

Lemma unitary_powers_of_eq (U : M) (est : list Wire) :
  unitary_powers_of U est = Returns (power_ladder U (length est - 1)).
Proof. unfold unitary_powers_of. by rewrite build_unitary_powers_run. Qed.

(** C3.  For registers that share no wire the call succeeds with a
    sequence of exactly 2n+1 operations: at positions 2i and 2i+1 the
    Hadamard on the i-th estimation wire and the controlled unitary that
    carries the i-th entry of the list of powers, with that wire as its
    control and the target register as its wires; at position 2n the
    inverse QFT on the estimation register as supplied. *)
Theorem emitted_sequence_shape (U : M) (target est : list Wire) :
  registers_disjoint target est →
  ∃ (ops : list Op) (ladder : list M),
    unitary_powers_of U est = Returns ladder ∧
    build U target est = Returns ops ∧
    length ops = 2 * length est + 1 ∧
    (∀ (i : nat) (w : Wire), est !! i = Some w →
       ∃ u : M, ladder !! i = Some u ∧
         ops !! (2 * i) = Some (hadamard_op w) ∧
         ops !! (2 * i + 1) = Some (controlled_op u w target)) ∧
    ops !! (2 * length est) = Some (inverse_qft_op est).
Proof.
  intros Hdis.
  exists (emitted U target est), (power_ladder U (length est - 1)).
  split; [apply unitary_powers_of_eq|].
  split; [by apply build_disjoint|].
  set (ps := zip est (power_ladder U (length est - 1))).
  assert (length ps = length est) as Hps.
  { unfold ps. rewrite length_zip, length_power_ladder. lia. }
  assert (length (ps ≫= pair_ops target) = 2 * length est) as Hlen
    by (by rewrite length_pairs_ops, Hps).
  unfold emitted. fold ps. split; [|split].
  - rewrite length_app, Hlen. simpl. lia.
  - intros i w Hi. pose proof (lookup_lt_Some _ _ _ Hi) as Hlt.
    destruct (lookup_lt_is_Some_2 (power_ladder U (length est - 1)) i)
      as [u Hu]; [rewrite length_power_ladder; lia|].
    exists u. split; [done|].
    assert (ps !! i = Some (w, u)) as Hp by (by apply lookup_zip_Some).
    destruct (lookup_pairs_ops target ps i w u Hp) as [Hh Hc].
    split; rewrite lookup_app_l by lia; done.
  - rewrite lookup_app_r by lia. rewrite Hlen, Nat.sub_diag. done.
Qed.

(** C4, as the code has it.  The list of powers has max(1, n) entries:
    one per estimation wire when there is at least one wire, and a single
    entry for the empty register. *)
Theorem unitary_powers_length (U : M) (est : list Wire) :
  ∃ ladder : list M,
    unitary_powers_of U est = Returns ladder ∧
    length ladder = Nat.max 1 (length est).
Proof.
  exists (power_ladder U (length est - 1)).
  split; [apply unitary_powers_of_eq|].
  rewrite length_power_ladder. lia.
Qed.


(** C10.  With an empty estimation register the call raises nothing: the
    list of powers is the one-element list holding the unitary, no product
    is evaluated, and the only operation appended is the inverse QFT on
    the empty register. *)
Theorem empty_estimation_register (U : M) (target : list Wire) (s : Ctx) :
  registers_disjoint target [] ∧
  unitary_powers_of U ([] : list Wire) = Returns [U] ∧
  QuantumPhaseEstimation U target [] s
  = (Returns (), mkContext (queue s ++ [inverse_qft_op []]) (matmuls s)) ∧
  build U target [] = Returns [inverse_qft_op []].
Proof.
  assert (registers_disjoint target []) as Hdis.
  { apply Forall_forall. intros w _. apply not_elem_of_nil. }
  split; [done|]. split; [done|]. split.
  - rewrite QuantumPhaseEstimation_disjoint by done.
    cbn [length]. by rewrite Nat.add_0_r.
  - by rewrite build_disjoint.
Qed.

End registers_and_shape.

(** ** Errors raised by the constructors of the operations *)

Section constructor_errors.
Context {Wire : Type} `{EqDecision Wire}.
Context {M : Type} `{MatMul M}.
Variable validate : Gate Wire M → option Exception.

Local Abbreviation Op := (Operation Wire M).
Local Abbreviation Ctx := (QueuingContext Wire M).

(** With constructors that accept every gate the template is the one of
    the previous sections. *)
Lemma QuantumPhaseEstimation_checked_accepting (U : M) (target est : list Wire) :
  QuantumPhaseEstimation_checked (λ _, None) U target est
  = QuantumPhaseEstimation U target est.
Proof. reflexivity. Qed.

Lemma construct_checked_accepts (g : Gate Wire M) (s : Ctx) :
  validate g = None →
  construct_checked validate g s
  = (Returns (length (queue s)),
     mkContext (queue s ++ [mkOperation g false]) (matmuls s)).
Proof. intros Hg. unfold construct_checked. by rewrite Hg. Qed.

Lemma construct_checked_rejects (g : Gate Wire M) (x : Exception) (s : Ctx) :
  validate g = Some x → construct_checked validate g s = (Raises x, s).
Proof. intros Hg. unfold construct_checked. by rewrite Hg. Qed.

(** The second loop either appends every pair, all gates accepted, or stops
    at the first gate the constructors reject, with the operations before
    it appended. *)
Lemma emission_loop_checked_run (target : list Wire) (ps : list (Wire * M)) :
  ∀ s : Ctx,
    (Forall (λ o, validate (gate o) = None) (ps ≫= pair_ops target) ∧
     for_in ps (apply_pair_checked validate target) () s
     = (Returns (), mkContext (queue s ++ ps ≫= pair_ops target) (matmuls s)))
    ∨
    (∃ (x : Exception) (pre : list Op) (o : Op) (rest : list Op),
       ps ≫= pair_ops target = pre ++ o :: rest ∧
       Forall (λ o, validate (gate o) = None) pre ∧
       validate (gate o) = Some x ∧
       for_in ps (apply_pair_checked validate target) () s
       = (Raises x, mkContext (queue s ++ pre) (matmuls s))).
Proof.
  induction ps as [|[w u] ps IH]; intros s.
  - left. split; [constructor|]. destruct s as [q m]. cbn.
    by rewrite app_nil_r.
  - rewrite bind_cons. cbn [for_in apply_pair_checked].
    destruct (validate (Hadamard w)) as [x|] eqn:Hh.
    { right. exists x, [], (hadamard_op w), (controlled_op u w target
                                               :: ps ≫= pair_ops target).
      split; [done|]. split; [constructor|]. split; [done|].
      unfold mbind at 1, Run_bind at 1. unfold mbind at 1, Run_bind at 1.
      rewrite (construct_checked_rejects _ x) by done.
      destruct s as [q m]. cbn. by rewrite app_nil_r. }
    destruct (validate (ControlledQubitUnitary u w target)) as [x|] eqn:Hc.
    { right. exists x, [hadamard_op w], (controlled_op u w target),
               (ps ≫= pair_ops target).
      split; [done|]. split; [by repeat constructor|]. split; [done|].
      unfold mbind at 1, Run_bind at 1. unfold mbind at 1, Run_bind at 1.
      rewrite construct_checked_accepts by done.
      unfold mbind at 1, Run_bind at 1.
      by rewrite (construct_checked_rejects _ x) by done. }
    set (s2 := mkContext (queue s ++ pair_ops target (w, u)) (matmuls s)).
    assert (apply_pair_checked validate target (w, u) () s = (Returns (), s2))
      as Hstep.
    { cbn [apply_pair_checked].
      unfold mbind at 1, Run_bind at 1.
      rewrite construct_checked_accepts by done.
      unfold mbind at 1, Run_bind at 1.
      rewrite construct_checked_accepts by done.
      unfold s2, pair_ops. cbn. by rewrite <- app_assoc. }
    change (_ ← construct_checked validate (Hadamard w);
            _ ← construct_checked validate (ControlledQubitUnitary u w target);
            mret ())
      with (apply_pair_checked validate target (w, u) ()).
    rewrite (bind_returns _ _ _ _ _ Hstep).
    destruct (IH s2) as [[Hall Hrun]|(x & pre & o & rest & Hsplit & Hpre & Hx & Hrun)].
    + left. split.
      * apply Forall_app. split; [by repeat constructor|done].
      * rewrite Hrun. unfold s2. cbn [queue matmuls]. by rewrite app_assoc.
    + right. exists x, (pair_ops target (w, u) ++ pre), o, rest.
      split; [by rewrite Hsplit, app_assoc|].
      split; [apply Forall_app; split; [by repeat constructor|done]|].
      split; [done|].
      rewrite Hrun. unfold s2. cbn [queue matmuls]. by rewrite app_assoc.
Qed.

Lemma inverse_qft_checked_run (wires : list Wire) (s : Ctx) :
  validate (QFT wires) = None →
  (op ← construct_checked validate (QFT wires); _ ← inv op; mret ()) s
  = (Returns (), mkContext (queue s ++ [inverse_qft_op wires]) (matmuls s)).
Proof.
  intros Hq. unfold mbind, Run_bind.
  rewrite construct_checked_accepts by done.
  unfold inv, mret, Run_ret. cbn [queue matmuls]. do 2 f_equal.
  rewrite <- (Nat.add_0_r (length (queue s))). by rewrite alter_app_r.
Qed.

Lemma length_emitted (U : M) (target est : list Wire) :
  length (emitted U target est) = 2 * length est + 1.
Proof.
  unfold emitted. rewrite length_app, length_pairs_ops, length_zip,
    length_power_ladder. simpl. lia.
Qed.

Lemma QuantumPhaseEstimation_checked_overlap (U : M) (t e : list Wire) (s : Ctx) :
  registers_overlap t e →
  QuantumPhaseEstimation_checked validate U t e s
  = (Raises (QuantumFunctionError overlap_message), s).
Proof.
  intros Hov. apply shared_wires_cons_overlap, len_nonzero in Hov.
  unfold QuantumPhaseEstimation_checked, Wires. by case_decide.
Qed.

(** For registers that share no wire the call either returns with the
    whole sequence appended or raises what the constructor of the first
    rejected operation raises, with the operations before it appended; the
    products have all been evaluated by then. *)
Lemma QuantumPhaseEstimation_checked_disjoint (U : M) (t e : list Wire) (s : Ctx) :
  registers_disjoint t e →
  (Forall (λ o, validate (gate o) = None) (emitted U t e) ∧
   QuantumPhaseEstimation_checked validate U t e s
   = (Returns (),
      mkContext (queue s ++ emitted U t e) (matmuls s + (length e - 1))))
  ∨
  (∃ (x : Exception) (pre : list Op) (o : Op) (rest : list Op),
     emitted U t e = pre ++ o :: rest ∧
     Forall (λ o, validate (gate o) = None) pre ∧
     validate (gate o) = Some x ∧
     QuantumPhaseEstimation_checked validate U t e s
     = (Raises x, mkContext (queue s ++ pre) (matmuls s + (length e - 1)))).
Proof.
  intros Hdis. apply shared_wires_nil_disjoint in Hdis.
  unfold QuantumPhaseEstimation_checked, Wires. rewrite Hdis.
  case_decide as Hlen; [done|].
  rewrite (bind_returns _ _ _ _ _ (build_unitary_powers_run U e s)).
  set (s1 := mkContext (queue s) (matmuls s + (length e - 1))).
  set (ps := zip e (power_ladder U (length e - 1))).
  unfold emitted. fold ps.
  destruct (emission_loop_checked_run t ps s1)
    as [[Hall Hrun]|(x & pre & o & rest & Hsplit & Hpre & Hx & Hrun)].
  - rewrite (bind_returns _ _ _ _ _ Hrun).
    destruct (validate (QFT e)) as [x|] eqn:Hq.
    + right. exists x, (ps ≫= pair_ops t), (inverse_qft_op e), [].
      split; [done|]. split; [done|]. split; [done|].
      unfold mbind at 1, Run_bind at 1.
      by rewrite (construct_checked_rejects _ x) by done.
    + left. split.
      * apply Forall_app. split; [done|]. by repeat constructor.
      * rewrite inverse_qft_checked_run by done.
        cbn [queue matmuls]. by rewrite app_assoc.
  - right. exists x, pre, o, (rest ++ [inverse_qft_op e]).
    split; [by rewrite Hsplit, <- app_assoc|]. split; [done|]. split; [done|].
    by rewrite (bind_raises _ _ _ _ _ Hrun).
Qed.

(** C6, as the code has it.  The template validates the registers, and
    nothing else, before any product or operation: when they overlap the
    call raises with the context untouched.  Whatever else is validated is
    validated by the constructors of the operations while they are
    emitted: when they accept every operation the call returns with the
    whole sequence of 2n+1 operations appended; otherwise it raises the
    error of the first rejected operation with the operations before that
    one, a proper part of the sequence, left in the queue. *)
Theorem emission_after_register_check (U : M) (target est : list Wire) (s : Ctx) :
  length (emitted U target est) = 2 * length est + 1 ∧
  ((registers_overlap target est ∧
    QuantumPhaseEstimation_checked validate U target est s
    = (Raises (QuantumFunctionError overlap_message), s))
   ∨
   (registers_disjoint target est ∧
    Forall (λ o, validate (gate o) = None) (emitted U target est) ∧
    ∃ s' : Ctx,
      QuantumPhaseEstimation_checked validate U target est s = (Returns (), s') ∧
      queue s' = queue s ++ emitted U target est)
   ∨
   (registers_disjoint target est ∧
    ∃ (x : Exception) (pre : list Op) (o : Op) (rest : list Op) (s' : Ctx),
      emitted U target est = pre ++ o :: rest ∧
      Forall (λ o, validate (gate o) = None) pre ∧
      validate (gate o) = Some x ∧
      QuantumPhaseEstimation_checked validate U target est s = (Raises x, s') ∧
      queue s' = queue s ++ pre ∧
      length pre < 2 * length est + 1)).
Proof.
  split; [apply length_emitted|].
  destruct (registers_disjoint_or_overlap target est) as [Hdis|Hov].
  - destruct (QuantumPhaseEstimation_checked_disjoint U target est s Hdis)
      as [[Hall Hrun]|(x & pre & o & rest & Hsplit & Hpre & Hx & Hrun)].
    + right. left. split; [done|]. split; [done|]. eauto.
    + right. right. split; [done|].
      exists x, pre, o, rest. eexists.
      split; [done|]. split; [done|]. split; [done|].
      split; [exact Hrun|]. split; [done|].
      pose proof (length_emitted U target est) as Hlen.
      rewrite Hsplit, length_app in Hlen. simpl in Hlen. lia.
  - left. split; [done|]. by apply QuantumPhaseEstimation_checked_overlap.
Qed.

(** X8.  Whatever the constructors of the operations do, a call evaluates
    no matrix product when the registers overlap and exactly max(n-1, 0)
    products when they do not: every product is evaluated before the first
    operation is constructed, so the count is the same whether the call
    returns or a constructor raises. *)
Theorem products_of_a_call (U : M) (target est : list Wire) (s : Ctx) :
  matmuls (QuantumPhaseEstimation_checked validate U target est s).2
  = matmuls s
    + (if decide (registers_disjoint target est) then length est - 1 else 0).
Proof.
  case_decide as Hdis.
  - destruct (QuantumPhaseEstimation_checked_disjoint U target est s Hdis)
      as [[_ Hrun]|(x & pre & o & rest & _ & _ & _ & Hrun)];
      by rewrite Hrun.
  - apply overlap_not_disjoint in Hdis.
    rewrite QuantumPhaseEstimation_checked_overlap by done. cbn. lia.
Qed.

End constructor_errors.

(** C6, refuted as stated: a 2x2 unitary with the target register [0; 3],
    whose size the constructor of the controlled unitary rejects.  The
    call raises at line 123 with the Hadamard on wire 1 already queued. *)
Lemma emission_partial_on_constructor_error :
  QuantumPhaseEstimation_checked (dimension_check 2) Mat2.S_gate
    [0%Z; 3%Z] [1%Z; 2%Z] (mkContext [] 0)
  = (Raises ValueError, mkContext [hadamard_op 1%Z] 1) ∧
  ¬ (queue (QuantumPhaseEstimation_checked (dimension_check 2) Mat2.S_gate
              [0%Z; 3%Z] [1%Z; 2%Z] (mkContext [] 0)).2 = [] ∨
     length (queue (QuantumPhaseEstimation_checked (dimension_check 2)
                      Mat2.S_gate [0%Z; 3%Z] [1%Z; 2%Z] (mkContext [] 0)).2)
     = 2 * 2 + 1).
Proof.
  split; [reflexivity|]. intros [Hq|Hq]; vm_compute in Hq; discriminate Hq.
Qed.

(** The same call on a target register of the right size returns the five
    operations. *)
Example checked_call_accepted :
  QuantumPhaseEstimation_checked (dimension_check 2) Mat2.S_gate
    [0%Z] [1%Z; 2%Z] (mkContext [] 0)
  = (Returns (),
     mkContext [hadamard_op 1%Z; controlled_op Mat2.Z_gate 1%Z [0%Z];
                hadamard_op 2%Z; controlled_op Mat2.S_gate 2%Z [0%Z];
                inverse_qft_op [1%Z; 2%Z]] 1).
Proof. reflexivity. Qed.

Section identity_unitary.
Context {Wire : Type} `{EqDecision Wire}.
Context {M : Type} `{MatMul M, MatEye M}.

Local Abbreviation Op := (Operation Wire M).

Lemma power_ladder_eye (k : nat) :
  eye @ eye = eye → power_ladder (eye : M) k = replicate (S k) eye.
Proof.
  intros Hid. induction k as [|k IH]; [done|].
  rewrite power_ladder_succ, IH. simpl. by rewrite Hid.
Qed.

Lemma pairs_with_constant (target est : list Wire) (u : M) :
  ∀ m : nat, length est ≤ m →
    zip est (replicate m u) ≫= pair_ops target
    = est ≫= λ w, [hadamard_op w; controlled_op u w target].
Proof.
  induction est as [|w est IH]; intros m Hm; [done|].
  destruct m as [|m]; [simpl in Hm; lia|].
  cbn [replicate zip zip_with]. rewrite !bind_cons.
  rewrite IH by (simpl in Hm; lia). done.
Qed.

Lemma controlled_ops_constant (target est : list Wire) (u : M) (tl : Op) :
  is_controlled tl = false →
  controlled_ops
    ((est ≫= λ w, [hadamard_op w; controlled_op u w target]) ++ [tl])
  = (λ w, controlled_op u w target) <$> est.
Proof.
  intros Htl. unfold controlled_ops.
  induction est as [|w est IH].
  - cbn [mbind list_bind app]. rewrite filter_cons_False; [done|].
    by rewrite Htl.
  - rewrite bind_cons, <- app_assoc, filter_app, IH. done.
Qed.

Lemma other_ops_constant (target est : list Wire) (u : M) (tl : Op) :
  is_controlled tl = false →
  filter (λ o : Op, is_controlled o = false)
    ((est ≫= λ w, [hadamard_op w; controlled_op u w target]) ++ [tl])
  = (hadamard_op <$> est) ++ [tl].
Proof.
  intros Htl. induction est as [|w est IH].
  - cbn [mbind list_bind app fmap list_fmap].
    by rewrite filter_cons_True.
  - rewrite bind_cons, <- app_assoc, filter_app, IH. done.
Qed.

(** C8.  When the unitary is the identity matrix (the product of the
    identity with itself being the identity) and the registers share no
    wire, [build] returns, for each estimation wire in turn, the Hadamard
    on it and a controlled unitary carrying the identity matrix, then the
    inverse QFT.  Every controlled unitary carries the identity, and with
    those left out the sequence is the n Hadamards followed by the
    inverse QFT. *)
Theorem identity_unitary_powers (target est : list Wire) :
  (eye : M) @ eye = eye →
  registers_disjoint target est →
  ∃ ops : list Op,
    build eye target est = Returns ops ∧
    ops = (est ≫= λ w, [hadamard_op w; controlled_op eye w target])
          ++ [inverse_qft_op est] ∧
    length (controlled_ops ops) = length est ∧
    Forall (λ o, carried_matrix o = Some eye) (controlled_ops ops) ∧
    filter (λ o : Op, is_controlled o = false) ops
    = (hadamard_op <$> est) ++ [inverse_qft_op est].
Proof.
  intros Hid Hdis. eexists. split; [by apply build_disjoint|].
  assert (emitted eye target est
          = (est ≫= λ w, [hadamard_op w; controlled_op eye w target])
            ++ [inverse_qft_op est]) as ->.
  { unfold emitted. rewrite power_ladder_eye by done.
    rewrite pairs_with_constant by lia. done. }
  split; [done|].
  rewrite controlled_ops_constant, other_ops_constant by done.
  split; [by rewrite length_fmap|]. split; [|done].
  apply Forall_fmap, Forall_true. done.
Qed.

End identity_unitary.

(** C4, refuted as stated: for the empty estimation register the list of
    powers has one entry, not zero. *)
Lemma unitary_powers_length_empty_register :
  ¬ ∃ ladder : list Mat2.mat,
      unitary_powers_of Mat2.S_gate ([] : list Z) = Returns ladder ∧
      length ladder = length ([] : list Z).
Proof.
  intros (ladder & Hrun & Hlen).
  vm_compute in Hrun. injection Hrun as <-. discriminate Hlen.
Qed.

(** ** Instances of the conditional theorems *)

Lemma overlapping_registers_rejected_witness :
  (build Mat2.S_gate [0%Z; 1%Z] [2%Z; 1%Z]
   = Raises (QuantumFunctionError overlap_message) ∧
   QuantumPhaseEstimation Mat2.S_gate [0%Z; 1%Z] [2%Z; 1%Z] (mkContext [] 0)
   = (Raises (QuantumFunctionError overlap_message), mkContext [] 0)) ∧
  ((∃ ops : list (Operation Z Mat2.mat),
      build Mat2.S_gate [0%Z] [1%Z; 2%Z] = Returns ops) ∧
   (QuantumPhaseEstimation Mat2.S_gate [0%Z] [1%Z; 2%Z] (mkContext [] 0)).1
   = Returns ()).
Proof.
  split.
  - apply (proj1 (overlapping_registers_rejected Mat2.S_gate
                    [0%Z; 1%Z] [2%Z; 1%Z] (mkContext [] 0))).
    compute_done.
  - apply (proj2 (overlapping_registers_rejected Mat2.S_gate
                    [0%Z] [1%Z; 2%Z] (mkContext [] 0))).
    compute_done.
Defined.

Lemma emitted_sequence_shape_witness :
  ∃ (ops : list (Operation Z Mat2.mat)) (ladder : list Mat2.mat),
    unitary_powers_of Mat2.S_gate [1%Z; 2%Z] = Returns ladder ∧
    build Mat2.S_gate [0%Z] [1%Z; 2%Z] = Returns ops ∧
    length ops = 2 * 2 + 1 ∧
    (∀ (i : nat) (w : Z), [1%Z; 2%Z] !! i = Some w →
       ∃ u : Mat2.mat, ladder !! i = Some u ∧
         ops !! (2 * i) = Some (hadamard_op w) ∧
         ops !! (2 * i + 1) = Some (controlled_op u w [0%Z])) ∧
    ops !! (2 * 2) = Some (inverse_qft_op [1%Z; 2%Z]).
Proof.
  apply (emitted_sequence_shape Mat2.S_gate [0%Z] [1%Z; 2%Z]).
  compute_done.
Defined.


Lemma identity_unitary_powers_witness :
  ∃ ops : list (Operation Z Mat2.mat),
    build (eye : Mat2.mat) [0%Z] [1%Z; 2%Z] = Returns ops ∧
    ops = ([1%Z; 2%Z] ≫= λ w, [hadamard_op w; controlled_op eye w [0%Z]])
          ++ [inverse_qft_op [1%Z; 2%Z]] ∧
    length (controlled_ops ops) = 2 ∧
    Forall (λ o, carried_matrix o = Some eye) (controlled_ops ops) ∧
    filter (λ o : Operation Z Mat2.mat, is_controlled o = false) ops
    = (hadamard_op <$> [1%Z; 2%Z]) ++ [inverse_qft_op [1%Z; 2%Z]].
Proof.
  apply (identity_unitary_powers (M:=Mat2.mat) [0%Z] [1%Z; 2%Z]).
  - reflexivity.
  - compute_done.
Defined.

(** * Further properties of the template *)

Section ladder_invariants.
Context {Wire : Type} `{EqDecision Wire}.
Context {M : Type} `{MatMul M}.

Local Abbreviation Op := (Operation Wire M).
Local Abbreviation Ctx := (QueuingContext Wire M).

Lemma power_ladder_nonempty (U : M) (k : nat) :
  ∃ h tl, power_ladder U k = h :: tl.
Proof.
  pose proof (length_power_ladder U k) as Hlen.
  destruct (power_ladder U k) as [|h tl]; [done|]. by exists h, tl.
Qed.

(** Each entry of the list is the square of the entry behind it. *)
Lemma power_ladder_chain (U : M) (k : nat) :
  ∀ (i : nat) (a b : M),
    power_ladder U k !! i = Some a → power_ladder U k !! S i = Some b →
    a = b @ b.
Proof.
  induction k as [|k IH]; intros i a b Ha Hb.
  - destruct i; done.
  - rewrite power_ladder_succ in Ha, Hb.
    destruct (power_ladder_nonempty U k) as (h & tl & Hl).
    rewrite Hl in Ha, Hb, IH. cbn [square_front] in Ha, Hb.
    destruct i as [|i].
    + cbn in Ha, Hb. congruence.
    + rewrite lookup_cons_ne_0 in Ha, Hb by done. cbn [pred] in Ha, Hb.
      by apply (IH i).
Qed.

Lemma power_ladder_last (U : M) (k : nat) : power_ladder U k !! k = Some U.
Proof.
  induction k as [|k IH]; [done|].
  rewrite power_ladder_succ.
  destruct (power_ladder_nonempty U k) as (h & tl & Hl).
  rewrite Hl in IH |- *. done.
Qed.

(** A family of properties that holds of the unitary at index 0 and moves
    from index j to j+1 under squaring holds along the list. *)
Lemma power_ladder_rel (P : nat → M → Prop) (U : M) :
  P 0 U → (∀ j a, P j a → P (S j) (a @ a)) →
  ∀ k i, i ≤ k → ∃ u, power_ladder U k !! i = Some u ∧ P (k - i) u.
Proof.
  intros H0 Hsq. induction k as [|k IH]; intros i Hi.
  - replace i with 0 by lia. by exists U.
  - rewrite power_ladder_succ.
    destruct (IH 0 ltac:(lia)) as (h' & Hh' & Ph'). rewrite Nat.sub_0_r in Ph'.
    destruct (power_ladder_nonempty U k) as (h & tl & Hl).
    rewrite Hl in IH, Hh' |- *. injection Hh' as <-. cbn [square_front].
    destruct i as [|i].
    + exists (h @ h). split; [done|]. rewrite Nat.sub_0_r. by apply Hsq.
    + rewrite lookup_cons_ne_0 by done. cbn [pred].
      replace (S k - S i) with (k - i) by lia. apply IH. lia.
Qed.

Lemma controlled_ops_lookup_intro (U : M) (target est : list Wire)
    (i : nat) (w : Wire) (u : M) :
  est !! i = Some w → power_ladder U (length est - 1) !! i = Some u →
  controlled_ops (emitted U target est) !! i = Some (controlled_op u w target).
Proof.
  intros Hw Hu. rewrite controlled_ops_emitted, list_lookup_fmap.
  assert (zip est (power_ladder U (length est - 1)) !! i = Some (w, u)) as ->
    by (by apply lookup_zip_Some).
  done.
Qed.

Lemma controlled_ops_lookup_inv (U : M) (target est : list Wire)
    (i : nat) (o : Op) :
  controlled_ops (emitted U target est) !! i = Some o →
  ∃ w u, est !! i = Some w ∧
         power_ladder U (length est - 1) !! i = Some u ∧
         o = controlled_op u w target.
Proof.
  rewrite controlled_ops_emitted, list_lookup_fmap. intros Ho.
  destruct (zip est (power_ladder U (length est - 1)) !! i)
    as [[w u]|] eqn:Hz; [|done].
  apply lookup_zip_Some in Hz as [Hw Hu].
  injection Ho as <-. by exists w, u.
Qed.

Lemma length_controlled_ops_emitted (U : M) (target est : list Wire) :
  length (controlled_ops (emitted U target est)) = length est.
Proof.
  rewrite controlled_ops_emitted, length_fmap, length_zip,
    length_power_ladder. lia.
Qed.

(** X1.  Whatever the matrix product is (no algebraic law is used), in the
    sequence returned for registers that share no wire the matrix of each
    controlled unitary is the product with itself of the matrix of the next
    controlled unitary, and the last controlled unitary carries the unitary
    as it was passed in. *)
Theorem controlled_matrices_squaring_chain (U : M) (target est : list Wire) :
  registers_disjoint target est →
  ∃ ops : list Op,
    build U target est = Returns ops ∧
    (∀ (i : nat) (o o' : Op) (a b : M),
       controlled_ops ops !! i = Some o →
       controlled_ops ops !! S i = Some o' →
       carried_matrix o = Some a → carried_matrix o' = Some b →
       a = b @ b) ∧
    (∀ o : Op, last (controlled_ops ops) = Some o →
       carried_matrix o = Some U).
Proof.
  intros Hdis. exists (emitted U target est).
  split; [by apply build_disjoint|]. split.
  - intros i o o' a b Ho Ho' Ha Hb.
    apply controlled_ops_lookup_inv in Ho as (w & u & _ & Hu & ->).
    apply controlled_ops_lookup_inv in Ho' as (w' & u' & _ & Hu' & ->).
    cbn in Ha, Hb. injection Ha as <-. injection Hb as <-.
    by apply (power_ladder_chain U (length est - 1) i).
  - intros o Ho. rewrite last_lookup, length_controlled_ops_emitted in Ho.
    apply controlled_ops_lookup_inv in Ho as (w & u & Hw & Hu & ->).
    pose proof (lookup_lt_Some _ _ _ Hw) as Hlt.
    replace (pred (length est)) with (length est - 1) in Hu by lia.
    rewrite power_ladder_last in Hu. by injection Hu as <-.
Qed.

Lemma emitted_controlled_closed (P : M → Prop) (U : M)
    (target est : list Wire) :
  P U → (∀ a : M, P a → P (a @ a)) →
  Forall (λ o, ∃ u : M, carried_matrix o = Some u ∧ P u)
    (controlled_ops (emitted U target est)).
Proof.
  intros HU Hsq. apply Forall_lookup. intros i o Ho.
  apply controlled_ops_lookup_inv in Ho as (w & u & Hw & Hu & ->).
  exists u. split; [done|].
  pose proof (lookup_lt_Some _ _ _ Hu) as Hlt.
  rewrite length_power_ladder in Hlt.
  destruct (power_ladder_rel (λ _, P) U HU (λ _, Hsq) (length est - 1) i)
    as (u' & Hu' & HP); [lia|].
  congruence.
Qed.

(** X2.  Any property of matrices that the unitary has and that squaring
    preserves holds of the matrix of every controlled unitary in the
    returned sequence. *)
Theorem controlled_matrices_invariant (P : M → Prop) (U : M)
    (target est : list Wire) :
  P U → (∀ a : M, P a → P (a @ a)) →
  registers_disjoint target est →
  ∃ ops : list Op,
    build U target est = Returns ops ∧
    Forall (λ o, ∃ u : M, carried_matrix o = Some u ∧ P u) (controlled_ops ops).
Proof.
  intros HU Hsq Hdis. exists (emitted U target est).
  split; [by apply build_disjoint|]. by apply emitted_controlled_closed.
Qed.

Lemma build_returns_disjoint (U : M) (target est : list Wire) (ops : list Op) :
  build U target est = Returns ops →
  registers_disjoint target est ∧ ops = emitted U target est.
Proof.
  intros Hb.
  destruct (registers_disjoint_or_overlap target est) as [Hdis|Hov].
  - rewrite build_disjoint in Hb by done. by injection Hb as <-.
  - by rewrite build_overlap in Hb.
Qed.

(** X9.  Every operation of a returned sequence is well formed for the
    two registers: Hadamards act on estimation wires, every controlled
    unitary acts on the target register with an estimation wire outside the
    target register as its control, neither is inverted, and a QFT acts on
    the estimation register and is inverted. *)
Theorem returned_operations_well_formed (U : M) (target est : list Wire)
    (ops : list Op) :
  build U target est = Returns ops →
  Forall (well_formed_op target est) ops.
Proof.
  intros Hb. apply build_returns_disjoint in Hb as [Hdis ->].
  unfold emitted. apply Forall_app. split.
  - apply Forall_bind, Forall_forall. intros [w u] Hin.
    apply list_elem_of_lookup in Hin as [i Hi].
    apply lookup_zip_Some in Hi as [Hw _].
    assert (w ∈ est) as Hwe by (apply list_elem_of_lookup; eauto).
    unfold pair_ops. repeat constructor; cbn; try done.
    intros Hwt. unfold registers_disjoint in Hdis.
    rewrite Forall_forall in Hdis. by apply (Hdis w).
  - by repeat constructor.
Qed.

Lemma power_ladder_succ_lookup (U : M) (k i : nat) (u : M) :
  power_ladder U k !! i = Some u →
  power_ladder U (S k) !! i = Some (u @ u).
Proof.
  intros Hu. rewrite power_ladder_succ.
  destruct (power_ladder_nonempty U k) as (h & tl & Hl).
  destruct i as [|i].
  - rewrite Hl in Hu |- *. cbn in Hu |- *. by injection Hu as <-.
  - pose proof (lookup_lt_Some _ _ _ Hu) as Hlt.
    destruct (lookup_lt_is_Some_2 (power_ladder U k) i) as [a Ha]; [lia|].
    rewrite (power_ladder_chain U k i a u Ha Hu) in Ha.
    rewrite Hl in Ha |- *. cbn [square_front].
    by rewrite lookup_cons_ne_0.
Qed.

Lemma registers_disjoint_app_l (target est est' : list Wire) :
  registers_disjoint target (est ++ est') → registers_disjoint target est.
Proof.
  unfold registers_disjoint. intros Hall. eapply Forall_impl; [exact Hall|].
  intros x Hx Hin. apply Hx, elem_of_app. by left.
Qed.

Lemma registers_disjoint_cons (target est : list Wire) (w : Wire) :
  registers_disjoint target (w :: est) → registers_disjoint target est.
Proof.
  unfold registers_disjoint. intros Hall. eapply Forall_impl; [exact Hall|].
  intros x Hx Hin. apply Hx. by right.
Qed.

(** X6.  Putting a wire in front of a non-empty estimation register keeps
    the Hadamards and controlled unitaries of the wires already there as
    they were, puts in front of them the Hadamard on the new wire and a
    controlled unitary that carries the square of the matrix the former
    first wire has, and widens the final QFT to the new register. *)
Theorem prepend_estimation_wire (U : M) (target est : list Wire) (w : Wire) :
  est ≠ [] →
  registers_disjoint target (w :: est) →
  ∃ (pairs : list Op) (m0 : M) (w0 : Wire),
    build U target est = Returns (pairs ++ [inverse_qft_op est]) ∧
    head est = Some w0 ∧
    pairs !! 1 = Some (controlled_op m0 w0 target) ∧
    build U target (w :: est)
    = Returns (hadamard_op w :: controlled_op (m0 @ m0) w target
               :: pairs ++ [inverse_qft_op (w :: est)]).
Proof.
  intros Hne Hdis. destruct est as [|w0 est']; [done|].
  destruct (power_ladder_nonempty U (length est')) as (h & tl & Hl).
  exists (zip (w0 :: est') (power_ladder U (length (w0 :: est') - 1))
            ≫= pair_ops target), h, w0.
  rewrite !build_disjoint by eauto using registers_disjoint_cons.
  unfold emitted. cbn [length]. rewrite !Nat.sub_succ, !Nat.sub_0_r.
  rewrite power_ladder_succ, Hl. done.
Qed.

(** X7.  Putting a wire behind the estimation register squares the matrix
    of every controlled unitary already there, control and position
    unchanged, and adds a last controlled unitary on the new wire that
    carries the unitary itself.  No algebraic law is used. *)
Theorem append_estimation_wire (U : M) (target est : list Wire) (w : Wire) :
  registers_disjoint target (est ++ [w]) →
  ∃ ops ops' : list Op,
    build U target est = Returns ops ∧
    build U target (est ++ [w]) = Returns ops' ∧
    (∀ (i : nat) (c : Wire) (m : M),
       controlled_ops ops !! i = Some (controlled_op m c target) →
       controlled_ops ops' !! i = Some (controlled_op (m @ m) c target)) ∧
    controlled_ops ops' !! length est = Some (controlled_op U w target).
Proof.
  intros Hdis.
  exists (emitted U target est), (emitted U target (est ++ [w])).
  rewrite !build_disjoint by eauto using registers_disjoint_app_l.
  assert (length (est ++ [w]) - 1 = length est) as Hlen
    by (rewrite length_app; simpl; lia).
  split; [done|]. split; [done|]. split.
  - intros i c m Ho.
    apply controlled_ops_lookup_inv in Ho as (c' & u & Hc & Hu & Heq).
    injection Heq as -> ->.
    pose proof (lookup_lt_Some _ _ _ Hc) as Hlt.
    apply controlled_ops_lookup_intro.
    + by rewrite lookup_app_l.
    + rewrite Hlen. replace (length est) with (S (length est - 1)) by lia.
      by apply power_ladder_succ_lookup.
  - apply controlled_ops_lookup_intro.
    + rewrite lookup_app_r by lia. by rewrite Nat.sub_diag.
    + rewrite Hlen. apply power_ladder_last.
Qed.

End ladder_invariants.

Section unitarity.
Context {Wire : Type} `{EqDecision Wire}.
Context {M : Type} `{MatMul M, MatEye M, MatAdj M}.
Hypothesis matmul_assoc : ∀ a b c : M, a @ (b @ c) = (a @ b) @ c.
Hypothesis matmul_eye_l : ∀ a : M, eye @ a = a.
Hypothesis adjoint_matmul : ∀ a b : M, adjoint (a @ b) = adjoint b @ adjoint a.

Lemma is_unitary_square (a : M) : is_unitary a → is_unitary (a @ a).
Proof.
  intros [Hl Hr]. unfold is_unitary. rewrite adjoint_matmul. split.
  - rewrite <- (matmul_assoc (adjoint a)), (matmul_assoc (adjoint a) a a).
    by rewrite Hl, matmul_eye_l.
  - rewrite <- (matmul_assoc a), (matmul_assoc a (adjoint a) (adjoint a)).
    by rewrite Hr, matmul_eye_l.
Qed.

(** X3.  When the matrix passed in is unitary, every controlled unitary of
    the returned sequence carries a unitary matrix. *)
Theorem controlled_matrices_unitary (U : M) (target est : list Wire) :
  is_unitary U →
  registers_disjoint target est →
  ∃ ops : list (Operation Wire M),
    build U target est = Returns ops ∧
    Forall (λ o, ∃ u : M, carried_matrix o = Some u ∧ is_unitary u)
      (controlled_ops ops).
Proof.
  intros HU Hdis. exists (emitted U target est).
  split; [by apply build_disjoint|].
  apply emitted_controlled_closed; [done|]. apply is_unitary_square.
Qed.

End unitarity.

Section periodicity.
Context {Wire : Type} `{EqDecision Wire}.
Context {M : Type} `{MatMul M, MatEye M}.
Hypothesis matmul_assoc : ∀ a b c : M, a @ (b @ c) = (a @ b) @ c.
Hypothesis matmul_eye_r : ∀ a : M, a @ eye = a.

Lemma matrix_power_two_eye (U : M) (k : nat) :
  matrix_power U (2 ^ k) = eye →
  ∀ j, k ≤ j → matrix_power U (2 ^ j) = eye.
Proof.
  intros Hk j Hj. induction Hj as [|j Hj IH]; [done|].
  rewrite <- (matrix_power_square matmul_assoc matmul_eye_r), IH.
  apply matmul_eye_r.
Qed.

(** X4.  If U to the power 2^k is the identity matrix, every estimation
    wire with at least k wires behind it in the register gets a controlled
    unitary that carries the identity matrix. *)
Theorem periodic_unitary_identity_controls (U : M) (k : nat)
    (target est : list Wire) :
  matrix_power U (2 ^ k) = eye →
  registers_disjoint target est →
  ∃ ops : list (Operation Wire M),
    build U target est = Returns ops ∧
    ∀ (i : nat) (w : Wire), est !! i = Some w →
      k ≤ length est - 1 - i →
      controlled_ops ops !! i = Some (controlled_op eye w target).
Proof.
  intros Hk Hdis. exists (emitted U target est).
  split; [by apply build_disjoint|].
  intros i w Hw Hki. pose proof (lookup_lt_Some _ _ _ Hw) as Hlt.
  apply controlled_ops_lookup_intro; [done|].
  rewrite (power_ladder_lookup matmul_assoc matmul_eye_r) by lia.
  f_equal. by apply (matrix_power_two_eye U k).
Qed.

End periodicity.

Section eigenvector.
Context {Wire : Type} `{EqDecision Wire}.
Context {M : Type} `{MatMul M}.
(** Vectors the matrices act on, and scalars with their product and unit. *)
Context {V C : Type} `{MatMul C, MatEye C}.
Variable apply : M → V → V.
Variable scale : C → V → V.
Hypothesis apply_matmul : ∀ (a b : M) (v : V), apply (a @ b) v = apply a (apply b v).
Hypothesis apply_scale : ∀ (a : M) (c : C) (v : V),
  apply a (scale c v) = scale c (apply a v).
Hypothesis scale_scale : ∀ (c d : C) (v : V), scale c (scale d v) = scale (c @ d) v.
Hypothesis scalar_assoc : ∀ a b c : C, a @ (b @ c) = (a @ b) @ c.
Hypothesis scalar_eye_r : ∀ a : C, a @ eye = a.

(** X5.  If v is an eigenvector of the matrix passed in, with eigenvalue
    lam, then the matrix of the i-th controlled unitary multiplies v by lam
    to the power 2^(n-1-i).  The matrix product itself needs no law, only
    that it acts on vectors as a composition. *)
Theorem controlled_matrices_eigenvalue (U : M) (v : V) (lam : C)
    (target est : list Wire) :
  apply U v = scale lam v →
  registers_disjoint target est →
  ∃ ops : list (Operation Wire M),
    build U target est = Returns ops ∧
    ∀ (i : nat) (w : Wire), est !! i = Some w →
      ∃ u : M,
        controlled_ops ops !! i = Some (controlled_op u w target) ∧
        apply u v = scale (matrix_power lam (2 ^ (length est - 1 - i))) v.
Proof.
  intros Heig Hdis. exists (emitted U target est).
  split; [by apply build_disjoint|].
  intros i w Hw. pose proof (lookup_lt_Some _ _ _ Hw) as Hlt.
  destruct (power_ladder_rel
              (λ j a, apply a v = scale (matrix_power lam (2 ^ j)) v) U)
    with (k := length est - 1) (i := i) as (u & Hu & Hact).
  - cbn. by rewrite scalar_eye_r.
  - intros j a Ha.
    rewrite apply_matmul, Ha, apply_scale, Ha, scale_scale.
    by rewrite (matrix_power_square scalar_assoc scalar_eye_r).
  - lia.
  - exists u. split; [|done]. by apply controlled_ops_lookup_intro.
Qed.

End eigenvector.

(** ** Facts about the 2x2 Gaussian-integer matrices used in the instances *)

Lemma Mat2_mul_eye_l (a : Mat2.mat) : eye @ a = a.
Proof.
  destruct a as [[] [] [] []].
  unfold matmul, eye, Mat2.mat_matmul, Mat2.mat_eye, Mat2.mul, Mat2.I2,
    Mat2.gadd, Mat2.gmul; cbn.
  f_equal; f_equal; ring.
Qed.

Lemma Mat2_adj_mul (a b : Mat2.mat) :
  adjoint (a @ b) = adjoint b @ adjoint a.
Proof.
  destruct a as [[] [] [] []], b as [[] [] [] []].
  unfold adjoint, Mat2_adjoint, Mat2.adj, matmul, Mat2.mat_matmul, Mat2.mul,
    Mat2.gadd, Mat2.gmul, Mat2.gconj; cbn.
  f_equal; f_equal; ring.
Qed.

Lemma Mat2_diagonal_square (a : Mat2.mat) :
  Mat2.is_diagonal a → Mat2.is_diagonal (a @ a).
Proof.
  destruct a as [[] [] [] []]. unfold Mat2.is_diagonal, Mat2.g0. cbn.
  intros [[= -> ->] [= -> ->]].
  unfold Mat2.gadd, Mat2.gmul; cbn. split; f_equal; ring.
Qed.

Lemma Mat2_vec_mul (a b : Mat2.mat) (v : Mat2.vec) :
  Mat2.mat_vec (a @ b) v = Mat2.mat_vec a (Mat2.mat_vec b v).
Proof.
  destruct a as [[] [] [] []], b as [[] [] [] []], v as [[] []].
  unfold Mat2.mat_vec, matmul, Mat2.mat_matmul, Mat2.mul, Mat2.gadd,
    Mat2.gmul; cbn.
  f_equal; f_equal; ring.
Qed.

Lemma Mat2_vec_scale (a : Mat2.mat) (c : Mat2.GInt) (v : Mat2.vec) :
  Mat2.mat_vec a (Mat2.vscale c v) = Mat2.vscale c (Mat2.mat_vec a v).
Proof.
  destruct a as [[] [] [] []], c, v as [[] []].
  unfold Mat2.mat_vec, Mat2.vscale, Mat2.gadd, Mat2.gmul; cbn.
  f_equal; f_equal; ring.
Qed.

Lemma Mat2_scale_scale (c d : Mat2.GInt) (v : Mat2.vec) :
  Mat2.vscale c (Mat2.vscale d v) = Mat2.vscale (c @ d) v.
Proof.
  destruct c, d, v as [[] []].
  unfold Mat2.vscale, matmul, Mat2.GInt_matmul, Mat2.gmul; cbn.
  f_equal; f_equal; ring.
Qed.

Lemma GInt_mul_assoc (a b c : Mat2.GInt) : a @ (b @ c) = (a @ b) @ c.
Proof.
  destruct a, b, c. unfold matmul, Mat2.GInt_matmul, Mat2.gmul; cbn.
  f_equal; ring.
Qed.

Lemma GInt_mul_eye_r (a : Mat2.GInt) : a @ eye = a.
Proof.
  destruct a. unfold matmul, eye, Mat2.GInt_matmul, Mat2.GInt_eye, Mat2.gmul,
    Mat2.g1; cbn.
  f_equal; ring.
Qed.

(** ** Instances of the further conditional theorems *)

Lemma controlled_matrices_squaring_chain_witness :
  ∃ ops : list (Operation Z Mat2.mat),
    build Mat2.S_gate [0%Z] [1%Z; 2%Z; 3%Z] = Returns ops ∧
    (∀ (i : nat) (o o' : Operation Z Mat2.mat) (a b : Mat2.mat),
       controlled_ops ops !! i = Some o →
       controlled_ops ops !! S i = Some o' →
       carried_matrix o = Some a → carried_matrix o' = Some b →
       a = b @ b) ∧
    (∀ o : Operation Z Mat2.mat, last (controlled_ops ops) = Some o →
       carried_matrix o = Some Mat2.S_gate).
Proof.
  apply (controlled_matrices_squaring_chain Mat2.S_gate [0%Z] [1%Z; 2%Z; 3%Z]).
  compute_done.
Defined.

Lemma controlled_matrices_invariant_witness :
  ∃ ops : list (Operation Z Mat2.mat),
    build Mat2.S_gate [0%Z] [1%Z; 2%Z; 3%Z] = Returns ops ∧
    Forall (λ o, ∃ u : Mat2.mat,
              carried_matrix o = Some u ∧ Mat2.is_diagonal u)
      (controlled_ops ops).
Proof.
  apply (controlled_matrices_invariant Mat2.is_diagonal Mat2.S_gate
           [0%Z] [1%Z; 2%Z; 3%Z]).
  - split; reflexivity.
  - exact Mat2_diagonal_square.
  - compute_done.
Defined.

Lemma controlled_matrices_unitary_witness :
  ∃ ops : list (Operation Z Mat2.mat),
    build Mat2.S_gate [0%Z] [1%Z; 2%Z; 3%Z] = Returns ops ∧
    Forall (λ o, ∃ u : Mat2.mat, carried_matrix o = Some u ∧ is_unitary u)
      (controlled_ops ops).
Proof.
  apply (controlled_matrices_unitary Mat2_mul_assoc Mat2_mul_eye_l
           Mat2_adj_mul Mat2.S_gate [0%Z] [1%Z; 2%Z; 3%Z]).
  - split; reflexivity.
  - compute_done.
Defined.

Lemma periodic_unitary_identity_controls_witness :
  ∃ ops : list (Operation Z Mat2.mat),
    build Mat2.X_gate [0%Z] [1%Z; 2%Z; 3%Z] = Returns ops ∧
    ∀ (i : nat) (w : Z), [1%Z; 2%Z; 3%Z] !! i = Some w →
      1 ≤ 3 - 1 - i →
      controlled_ops ops !! i = Some (controlled_op eye w [0%Z]).
Proof.
  apply (periodic_unitary_identity_controls Mat2_mul_assoc Mat2_mul_eye_r
           Mat2.X_gate 1 [0%Z] [1%Z; 2%Z; 3%Z]).
  - reflexivity.
  - compute_done.
Defined.

Lemma controlled_matrices_eigenvalue_witness :
  ∃ ops : list (Operation Z Mat2.mat),
    build Mat2.S_gate [0%Z] [1%Z; 2%Z] = Returns ops ∧
    ∀ (i : nat) (w : Z), [1%Z; 2%Z] !! i = Some w →
      ∃ u : Mat2.mat,
        controlled_ops ops !! i = Some (controlled_op u w [0%Z]) ∧
        Mat2.mat_vec u (Mat2.mkVec Mat2.g0 Mat2.g1)
        = Mat2.vscale (matrix_power Mat2.gi (2 ^ (2 - 1 - i)))
            (Mat2.mkVec Mat2.g0 Mat2.g1).
Proof.
  apply (controlled_matrices_eigenvalue Mat2.mat_vec Mat2.vscale
           Mat2_vec_mul Mat2_vec_scale Mat2_scale_scale
           GInt_mul_assoc GInt_mul_eye_r
           Mat2.S_gate (Mat2.mkVec Mat2.g0 Mat2.g1) Mat2.gi
           [0%Z] [1%Z; 2%Z]).
  - reflexivity.
  - compute_done.
Defined.

Lemma prepend_estimation_wire_witness :
  ∃ (pairs : list (Operation Z Mat2.mat)) (m0 : Mat2.mat) (w0 : Z),
    build Mat2.S_gate [0%Z] [2%Z; 3%Z]
    = Returns (pairs ++ [inverse_qft_op [2%Z; 3%Z]]) ∧
    head [2%Z; 3%Z] = Some w0 ∧
    pairs !! 1 = Some (controlled_op m0 w0 [0%Z]) ∧
    build Mat2.S_gate [0%Z] [1%Z; 2%Z; 3%Z]
    = Returns (hadamard_op 1%Z :: controlled_op (m0 @ m0) 1%Z [0%Z]
               :: pairs ++ [inverse_qft_op [1%Z; 2%Z; 3%Z]]).
Proof.
  apply (prepend_estimation_wire Mat2.S_gate [0%Z] [2%Z; 3%Z] 1%Z).
  - discriminate.
  - compute_done.
Defined.

Lemma append_estimation_wire_witness :
  ∃ ops ops' : list (Operation Z Mat2.mat),
    build Mat2.S_gate [0%Z] [1%Z; 2%Z] = Returns ops ∧
    build Mat2.S_gate [0%Z] ([1%Z; 2%Z] ++ [3%Z]) = Returns ops' ∧
    (∀ (i : nat) (c : Z) (m : Mat2.mat),
       controlled_ops ops !! i = Some (controlled_op m c [0%Z]) →
       controlled_ops ops' !! i = Some (controlled_op (m @ m) c [0%Z])) ∧
    controlled_ops ops' !! 2 = Some (controlled_op Mat2.S_gate 3%Z [0%Z]).
Proof.
  apply (append_estimation_wire Mat2.S_gate [0%Z] [1%Z; 2%Z] 3%Z).
  compute_done.
Defined.

Lemma returned_operations_well_formed_witness :
  Forall (well_formed_op [0%Z] [1%Z; 2%Z])
    [hadamard_op 1%Z; controlled_op Mat2.Z_gate 1%Z [0%Z];
     hadamard_op 2%Z; controlled_op Mat2.S_gate 2%Z [0%Z];
     inverse_qft_op [1%Z; 2%Z]].
Proof.
  apply (returned_operations_well_formed Mat2.S_gate [0%Z] [1%Z; 2%Z]).
  reflexivity.
Defined.
